(** * Tagged unions for Go: a shallow embedding of package [tagged]

  The development follows [tagged.go].  Values live in byte-addressed
  memory, because the package reads and writes them through
  [unsafe.Pointer]; sizes, alignments and field offsets are those of the
  gc compiler on a 64-bit little-endian target. *)

From Stdlib Require Import ZArith Lia String.
From coqutil Require Import Byte Word.LittleEndianList.
From stdpp Require Import base list.

Local Open Scope Z_scope.
Set Warnings "-register-all".

(** ** Package [reflect]: types as the package inspects them *)

Module reflect.

(** A type is identified with its kind, together with the element type of
    an array and the field types of a struct.  Pointers, channels, maps,
    slices and functions are leaves: [hasPointers] never looks below
    them, which is also why every Go type is a finite tree here. *)
Inductive Type_ : Type :=
| Bool | Int | Int8 | Int16 | Int32 | Int64
| Uint | Uint8 | Uint16 | Uint32 | Uint64 | Uintptr
| Float32 | Float64 | Complex64 | Complex128
| Chan | Func | Interface | Map | Ptr | Slice | String | UnsafePointer
| Array (len : nat) (elem : Type_)
| Struct (fields : list Type_).

(** [reflect.TypeOf(x)] for [var x T]: the dynamic type of the zero value.
    The zero value of an interface type is the nil interface, whose
    dynamic type is the nil [reflect.Type]. *)
Definition TypeOf_zero (T : Type_) : option Type_ :=
  match T with
  | Interface => None
  | _ => Some T
  end.

End reflect.

Abbreviation rtype := reflect.Type_.

(** ** Panics

    Every failure of the package is a panic.  A call either returns, or
    panics with a value, or reinterprets memory in a way for which neither
    Go nor this model defines a result. *)

Inductive fault : Type :=
| Msg (s : string)
    (* panic("...") with a constant string *)
| CannotLoad (Value : rtype) (buf : Z) (why : string)
    (* panic(fmt.Sprintf("cannot load %T into [%d]byte %T, <why>", ...)) *)
| TooManyFields
    (* panic(fmt.Sprintf("too many fields in %T", values)) *)
| RuntimeError (s : string).
    (* a panic raised by the Go runtime *)

Inductive outcome (A : Type) : Type :=
| Ret (a : A)
| Panic (e : fault)
| Undefined.
Arguments Ret {A} a.
Arguments Panic {A} e.
Arguments Undefined {A}.

#[global] Instance outcome_ret : MRet outcome := fun A a => Ret a.
#[global] Instance outcome_bind : MBind outcome := fun A B k m =>
  match m with
  | Ret a => k a
  | Panic e => Panic e
  | Undefined => Undefined
  end.

Definition nil_dereference : fault :=
  RuntimeError "invalid memory address or nil pointer dereference"%string.
Definition interface_conversion : fault :=
  RuntimeError "interface conversion"%string.

(** [t.Kind() == reflect.Array]: a method call on the interface value [t],
    which panics when [t] is the nil [reflect.Type]. *)
Definition Kind_is_Array (t : option rtype) : outcome bool :=
  match t with
  | None => Panic nil_dereference
  | Some (reflect.Array _ _) => Ret true
  | Some _ => Ret false
  end.

(** ** Package [unsafe]: sizes, alignments, offsets *)

Module unsafe.
Import reflect.

(** Round [o] up to a multiple of [a]. *)
Definition RoundUp (o a : Z) : Z := (o + a - 1) / a * a.

Fixpoint Alignof (T : rtype) : Z :=
  match T with
  | Bool | Int8 | Uint8 => 1
  | Int16 | Uint16 => 2
  | Int32 | Uint32 | Float32 | Complex64 => 4
  | Int | Int64 | Uint | Uint64 | Uintptr | Float64 | Complex128 => 8
  | Chan | Func | Interface | Map | Ptr | Slice | String | UnsafePointer => 8
  | Array _ elem => Alignof elem
  | Struct fields => foldr Z.max 1 (Alignof <$> fields)
  end.

(** End offset of a run of fields laid out from offset [o]; a field is
    given by its alignment and its size. *)
Fixpoint layout (o : Z) (fields : list (Z * Z)) : Z :=
  match fields with
  | [] => o
  | (a, s) :: rest => layout (RoundUp o a + s) rest
  end.

(** Size of a struct: the fields in order, one byte of padding when a
    struct of non-zero size ends in a zero-sized field, then rounded up
    to the struct's alignment. *)
Definition struct_size (fields : list (Z * Z)) : Z :=
  let size := layout 0 fields in
  let size := if (0 <? size) && (default 1 (snd <$> last fields) =? 0)
              then size + 1 else size in
  RoundUp size (foldr Z.max 1 (fst <$> fields)).

Fixpoint Sizeof (T : rtype) : Z :=
  match T with
  | Bool | Int8 | Uint8 => 1
  | Int16 | Uint16 => 2
  | Int32 | Uint32 | Float32 => 4
  | Int | Int64 | Uint | Uint64 | Uintptr | Float64 | Complex64 => 8
  | Chan | Func | Map | Ptr | UnsafePointer => 8
  | Complex128 | Interface | String => 16
  | Slice => 24
  | Array len elem => Z.of_nat len * Sizeof elem
  | Struct fields =>
      struct_size ((fun F => (Alignof F, Sizeof F)) <$> fields)
  end.

Definition dims (T : rtype) : Z * Z := (Alignof T, Sizeof T).

(** [unsafe.Offsetof(s.f)] for the field of index [i] of a struct. *)
Definition Offsetof (fields : list rtype) (i : nat) : Z :=
  RoundUp (layout 0 (dims <$> take i fields))
          (default 1 (Alignof <$> fields !! i)).

End unsafe.

(** ** Memory

    An address is a byte offset from the variable an operation works on;
    what lies around that variable is whatever the caller's stack or heap
    holds there. *)

Definition memory : Type := Z -> byte.

Definition mem_write (m : memory) (p : Z) (bs : list byte) : memory :=
  fun a =>
    if (p <=? a) && (a <? p + Z.of_nat (length bs))
    then default Byte.x00 (bs !! Z.to_nat (a - p))
    else m a.

Definition mem_read (m : memory) (p n : Z) : list byte :=
  (fun k => m (p + Z.of_nat k)) <$> seq 0 (Z.to_nat n).

(** The bytes of a value of type [T] all zero: [var x T]. *)
Definition zero (T : rtype) : list byte :=
  replicate (Z.to_nat (unsafe.Sizeof T)) Byte.x00.

(** [int16(i)]: the low 16 bits, read as a signed number. *)
Definition int16 (i : Z) : Z := (i + 2 ^ 15) mod 2 ^ 16 - 2 ^ 15.

Definition put_int16 (x : Z) : list byte := le_split 2 x.
Definition get_int16 (bs : list byte) : Z := int16 (le_combine bs).
Definition get_bool (bs : list byte) : bool :=
  negb (le_combine bs =? 0).

Definition MaxInt32 : Z := 2 ^ 31 - 1.

(** ** Package [tagged]: the data model *)

(** The terms of the [buffer] constraint. *)
Inductive buffer : Type :=
| buf_any
| buf_4byte | buf_8byte | buf_12byte | buf_16byte | buf_24byte | buf_32byte
| buf_64byte | buf_128byte | buf_256byte | buf_512byte | buf_1024byte.

Definition buffer_len (B : buffer) : option nat :=
  match B with
  | buf_any => None
  | buf_4byte => Some 4%nat | buf_8byte => Some 8%nat
  | buf_12byte => Some 12%nat | buf_16byte => Some 16%nat
  | buf_24byte => Some 24%nat | buf_32byte => Some 32%nat
  | buf_64byte => Some 64%nat | buf_128byte => Some 128%nat
  | buf_256byte => Some 256%nat | buf_512byte => Some 512%nat
  | buf_1024byte => Some 1024%nat
  end.

Definition buffer_type (B : buffer) : rtype :=
  match buffer_len B with
  | None => reflect.Interface
  | Some n => reflect.Array n reflect.Uint8
  end.

(** A union type [Union[Buf, struct{ ... As[U, V_i] ... }]]: its buffer
    and the value types of its [As] fields, in declaration order. *)
Record union_type : Type := {
  Buf : buffer;
  Values : list rtype;
}.

(** [Field[Union]].  The blank [*[0]Union] field is always nil; it only
    ties the descriptor to its union type for the type checker. *)
Record Field : Type := {
  tag : Z;      (* int16 *)
  set : Z;      (* uintptr *)
  any : bool;
}.

Definition zero_Field : Field := {| tag := 0; set := 0; any := false |}.

(** [UnionMethods[Buf, Values]]: struct { tag int16; any bool; buf Buf }. *)
Definition UnionMethods (B : rtype) : list rtype :=
  [reflect.Int16; reflect.Bool; B].

(** [unsafe.Offsetof(union.buf)]. *)
Definition Offsetof_buf (B : rtype) : Z := unsafe.Offsetof (UnionMethods B) 2.

(** [Union[Buf, Values]]: struct { UnionMethods[Buf, Values] }. *)
Definition Union (U : union_type) : rtype :=
  reflect.Struct [reflect.Struct (UnionMethods (buffer_type (Buf U)))].

(** The interface slot of a boxed union: nil, or a dynamic type with the
    value it holds. *)
Definition eface : Type := option (rtype * list byte).

(** A union value.  Over a byte buffer it is the bytes of the struct;
    over [any] it is the struct's three fields, the last an interface
    value. *)
Inductive union_value : Type :=
| Raw (bytes : list byte)
| Boxed (utag : Z) (uany : bool) (ubuf : eface).

(** [var union Union]. *)
Definition zero_union (U : union_type) : union_value :=
  match Buf U with
  | buf_any => Boxed 0 false None
  | _ => Raw (zero (Union U))
  end.

(** Identity of types, as a type assertion compares them. *)
Fixpoint Type_eq_dec (S T : rtype) : {S = T} + {S <> T}.
Proof.
  decide equality.
  - apply Nat.eq_dec.
  - apply (List.list_eq_dec Type_eq_dec).
Defined.

#[global] Instance Type_eq_decision : EqDecision rtype := Type_eq_dec.

(** ** Package [tagged]: accessor derivation *)

Fixpoint hasPointers (value : rtype) : bool :=
  match value with
  | reflect.Ptr | reflect.Chan | reflect.Map | reflect.Interface
  | reflect.Slice | reflect.Func | reflect.UnsafePointer => true
  | reflect.Struct fields => existsb hasPointers fields
  | reflect.Array _ elem => hasPointers elem
  | _ => false
  end.

(** The call [hasPointers(t)] from outside: its first step is the method
    call [t.Kind()], and [t] is nil when it is the [reflect.TypeOf] of a
    nil interface.  Field and element types are never nil. *)
Definition hasPointers_call (t : option rtype) : outcome bool :=
  match t with
  | None => Panic nil_dereference
  | Some value => Ret (hasPointers value)
  end.

(** [As[Union, Value].load], on a pointer receiver: checks [Value] against the buffer, then
    overwrites the three fields of the descriptor. *)
Definition load (Value : rtype) (field : Field)
    (tag' : Z) (direct : bool) (buf offset : Z) : outcome Field :=
  pointers ← hasPointers_call (reflect.TypeOf_zero Value);
  if pointers && direct
  then Panic (CannotLoad Value buf "contains pointers")
  else if direct && (unsafe.Sizeof Value >? buf)
  then Panic (CannotLoad Value buf "buffer too small")
  else
    let field := {| tag := tag'; set := set field; any := any field |} in
    let field := {| tag := tag field; set := offset; any := any field |} in
    let field := {| tag := tag field; set := set field; any := negb direct |} in
    Ret field.

(** The loop of [values]: [fields] are the fields not yet visited, [i] is
    the index of the first of them, [values] is the bundle being filled
    in place. *)
Fixpoint values_loop (direct : bool) (buf offset : Z)
    (fields : list rtype) (i : nat) (values : list Field)
    : outcome (list Field) :=
  match fields with
  | [] => Ret values
  | Value :: fields =>
      if Z.of_nat i >? MaxInt32 then Panic TooManyFields
      else
        field ← load Value (default zero_Field (values !! i))
                     (int16 (Z.of_nat i)) direct buf offset;
        values_loop direct buf offset fields (S i) (<[i := field]> values)
  end.

(** [UnionMethods[Buf, Values].values].  The receiver is used for
    [unsafe.Offsetof(union.buf)] only. *)
Definition values (U : union_type) (union : union_value)
    : outcome (list Field) :=
  let buffer := buffer_type (Buf U) in
  let values := replicate (length (Values U)) zero_Field in
  direct ← Kind_is_Array (reflect.TypeOf_zero buffer);
  values_loop direct (unsafe.Sizeof buffer) (Offsetof_buf buffer)
              (Values U) 0 values.

Definition Fields (U : union_type) (union : union_value)
    : outcome (list Field) :=
  values U union.

(** ** Package [tagged]: union values *)

(** [UnionMethods[Buf, Values].getTag]. *)
Definition getTag (U : union_type) (union : union_value) : Field :=
  match union with
  | Raw bytes =>
      {| tag := get_int16 (take 2 bytes);
         set := Offsetof_buf (buffer_type (Buf U));
         any := get_bool (take 1 (drop 2 bytes)) |}
  | Boxed utag uany _ =>
      {| tag := utag;
         set := Offsetof_buf (buffer_type (Buf U));
         any := uany |}
  end.

Definition FieldOf (U : union_type) (union : union_value) : Field :=
  let tag' := getTag U union in
  {| tag := tag tag'; set := set tag'; any := any tag' |}.

Definition not_initialized : fault :=
  Msg "tagged.Field must be initialized before use".
Definition wrong_tag : fault :=
  Msg "tagged.Field.Get called with wrong tag".

(** [As[Union, Value].New].  [ambient] is the memory around the local
    variable [union]: the final read of [Sizeof(Union)] bytes runs past
    the variable when [Value] is smaller than the buffer.

    With [f.any] the local is a [UnionMethods[any, struct{}]], which is a
    [Union] only when the union's buffer is [any]; without [f.any] the
    local is raw bytes, which are a [Union] only when the buffer is a byte
    array.  The dynamic type of an interface-typed value is not in its
    bytes. *)
Definition New (U : union_type) (Value : rtype) (f : Field)
    (ambient : memory) (value : list byte) : outcome union_value :=
  if set f =? 0 then Panic not_initialized
  else if any f then
    match Buf U, Value with
    | buf_any, reflect.Interface => Undefined
    | buf_any, _ => Ret (Boxed (tag f) true (Some (Value, value)))
    | _, _ => Undefined
    end
  else
    match Buf U with
    | buf_any => Undefined
    | _ =>
        let local := reflect.Struct (UnionMethods Value) in
        let union := mem_write ambient 0 (zero local) in
        let union := mem_write union 0 (put_int16 (tag f)) in
        let union := mem_write union (set f) value in
        Ret (Raw (mem_read union 0 (unsafe.Sizeof (Union U))))
    end.

(** [As[Union, Value].Lookup].  [ambient] is the memory around the
    parameter [union]. *)
Definition Lookup (U : union_type) (Value : rtype) (f : Field)
    (ambient : memory) (union : union_value) : outcome (list byte * bool) :=
  if set f =? 0 then Panic not_initialized
  else
    let zero := zero Value in
    if any f then
      match union with
      | Boxed utag _ ubuf =>
          if negb (utag =? tag f) then Ret (zero, false)
          else
            match Value, ubuf with
            | reflect.Interface, _ => Undefined
            | _, Some (T, value) =>
                if decide (T = Value) then Ret (value, true)
                else Panic interface_conversion
            | _, None => Panic interface_conversion
            end
      | Raw _ => Undefined
      end
    else
      match union with
      | Raw bytes =>
          let union := mem_write ambient 0 bytes in
          let typed_tag := get_int16 (mem_read union 0 2) in
          if negb (typed_tag =? tag f) then Ret (zero, false)
          else Ret (mem_read union (set f) (unsafe.Sizeof Value), true)
      | Boxed _ _ _ => Undefined
      end.

(** [As[Union, Value].Get]. *)
Definition Get (U : union_type) (Value : rtype) (f : Field)
    (ambient : memory) (union : union_value) : outcome (list byte) :=
  '(value, ok) ← Lookup U Value f ambient union;
  if negb ok then Panic wrong_tag else Ret value.

(** ** Package [tagged]: dynamic extraction *)

Definition index_out_of_range : fault :=
  RuntimeError "reflect: Field index out of range"%string.

(** [union.tag], read from a union value. *)
Definition union_tag (union : union_value) : Z :=
  match union with
  | Raw bytes => get_int16 (take 2 bytes)
  | Boxed utag _ _ => utag
  end.

(** Conversion of a value of static type [Value] to [any].  The dynamic
    type of an interface-typed value is not in its bytes. *)
Definition to_any (Value : rtype) (value : list byte) : outcome eface :=
  match Value with
  | reflect.Interface => Undefined
  | _ => Ret (Some (Value, value))
  end.

(** [As[Union, Value].get], on a pointer receiver: the pointer it is
    given is the address of a union, which it reads and hands to [Get]. *)
Definition get (U : union_type) (Value : rtype) (field : Field)
    (ambient : memory) (union : union_value) : outcome eface :=
  value ← Get U Value field ambient union;
  to_any Value value.

(** [UnionMethods[Buf, Values].Interface].  [rvalue.Field(int(i))] panics
    unless [i] is the index of a field. *)
Definition Interface (U : union_type) (ambient : memory)
    (union : union_value) : outcome eface :=
  let buffer := buffer_type (Buf U) in
  let values := replicate (length (Values U)) zero_Field in
  direct ← Kind_is_Array (reflect.TypeOf_zero buffer);
  let i := union_tag union in
  if (i <? 0) || (Z.of_nat (length (Values U)) <=? i)
  then Panic index_out_of_range
  else
    match Values U !! Z.to_nat i with
    | None => Panic index_out_of_range
    | Some Value =>
        getter ← load Value (default zero_Field (values !! Z.to_nat i))
                      (int16 i) direct (unsafe.Sizeof buffer)
                      (Offsetof_buf buffer);
        get U Value getter ambient union
    end.

(** ** Vocabulary of the properties *)

(** The descriptor [load] writes for the field of index [i]. *)
Definition derived (direct : bool) (offset : Z) (i : nat) : Field :=
  {| tag := int16 (Z.of_nat i); set := offset; any := negb direct |}.

(** The condition under which [load] returns. *)
Definition loadable (direct : bool) (buf : Z) (Value : rtype) : bool :=
  match Value with
  | reflect.Interface => false
  | _ => negb direct || (negb (hasPointers Value) && (unsafe.Sizeof Value <=? buf))
  end.

(** What a derivation over a byte buffer of [n] bytes needs. *)
Definition derivable (n : nat) (alternatives : list rtype) : Prop :=
  forallb (loadable true (Z.of_nat n)) alternatives = true
  ∧ Z.of_nat (length alternatives) <= MaxInt32 + 1.

(** The memory of [New] just before its final read. *)
Definition New_memory (Value : rtype) (f : Field) (ambient : memory)
    (value : list byte) : memory :=
  mem_write
    (mem_write
       (mem_write ambient 0 (zero (reflect.Struct (UnionMethods Value))))
       0 (put_int16 (tag f)))
    (set f) value.

(** A union of 65,537 one-byte alternatives over a four-byte buffer. *)
Definition Wide : union_type :=
  {| Buf := buf_4byte; Values := replicate (Z.to_nat 65537) reflect.Uint8 |}.

(** A union of 65,536 one-byte alternatives over a four-byte buffer. *)
Definition Full : union_type :=
  {| Buf := buf_4byte; Values := replicate (Z.to_nat 65536) reflect.Uint8 |}.

(** A type contains pointer-like data when it is a pointer, channel, map,
    interface, slice, function or unsafe pointer, or a struct or array
    with such a type inside. *)
Inductive pointer_like : rtype → Prop :=
| pl_Ptr : pointer_like reflect.Ptr
| pl_Chan : pointer_like reflect.Chan
| pl_Map : pointer_like reflect.Map
| pl_Interface : pointer_like reflect.Interface
| pl_Slice : pointer_like reflect.Slice
| pl_Func : pointer_like reflect.Func
| pl_UnsafePointer : pointer_like reflect.UnsafePointer.

Inductive contains_pointer : rtype → Prop :=
| cp_here T : pointer_like T → contains_pointer T
| cp_field fields F :
    F ∈ fields → contains_pointer F → contains_pointer (reflect.Struct fields)
| cp_elem len elem :
    contains_pointer elem → contains_pointer (reflect.Array len elem).

(** * Properties *)

(** ** Memory *)

Lemma length_mem_read m p n : length (mem_read m p n) = Z.to_nat n.
Proof. unfold mem_read. by rewrite length_fmap, length_seq. Qed.

Lemma mem_read_lookup m p n (k : nat) :
  Z.of_nat k < n → mem_read m p n !! k = Some (m (p + Z.of_nat k)).
Proof.
  intros Hk. unfold mem_read.
  rewrite list_lookup_fmap, lookup_seq_lt by lia. done.
Qed.

Lemma mem_read_ext m m' p n :
  (∀ a, p <= a < p + n → m a = m' a) → mem_read m p n = mem_read m' p n.
Proof.
  intros Hext. apply list_eq. intros k.
  destruct (decide (Z.of_nat k < n)) as [Hk|Hk].
  - rewrite !mem_read_lookup by done. f_equal. apply Hext. lia.
  - rewrite !lookup_ge_None_2; [done | rewrite length_mem_read; lia ..].
Qed.

Lemma mem_write_inside m p bs a (k : nat) :
  a = p + Z.of_nat k → (k < length bs)%nat →
  Some (mem_write m p bs a) = bs !! k.
Proof.
  intros -> Hk. unfold mem_write.
  rewrite andb_true_intro by (split; [apply Z.leb_le | apply Z.ltb_lt]; lia).
  replace (Z.to_nat (p + Z.of_nat k - p)) with k by lia.
  destruct (lookup_lt_is_Some_2 bs k Hk) as [b ->]. done.
Qed.

Lemma mem_write_outside m p bs a :
  a < p ∨ p + Z.of_nat (length bs) <= a → mem_write m p bs a = m a.
Proof.
  intros Ha. unfold mem_write.
  destruct (p <=? a) eqn:E1, (a <? p + Z.of_nat (length bs)) eqn:E2; simpl; try done.
  apply Z.leb_le in E1. apply Z.ltb_lt in E2. lia.
Qed.

Lemma mem_read_write_same m p bs :
  mem_read (mem_write m p bs) p (Z.of_nat (length bs)) = bs.
Proof.
  apply list_eq. intros k.
  destruct (decide (k < length bs)%nat) as [Hk|Hk].
  - rewrite mem_read_lookup by lia. by apply mem_write_inside.
  - rewrite !lookup_ge_None_2; [done | try rewrite length_mem_read; lia ..].
Qed.

Lemma mem_read_write_other m p bs q n :
  q + n <= p ∨ p + Z.of_nat (length bs) <= q →
  mem_read (mem_write m p bs) q n = mem_read m q n.
Proof.
  intros Hd. apply mem_read_ext. intros a Ha. apply mem_write_outside. lia.
Qed.

(** Reading inside a copy of [n] bytes of [m] is reading [m]. *)
Lemma mem_read_copy ambient m N q n :
  0 <= q → q + n <= N →
  mem_read (mem_write ambient 0 (mem_read m 0 N)) q n = mem_read m q n.
Proof.
  intros Hq Hn. apply mem_read_ext. intros a Ha.
  apply (inj Some).
  rewrite (mem_write_inside _ _ _ _ (Z.to_nat a))
    by (rewrite ?length_mem_read; lia).
  rewrite mem_read_lookup by lia. f_equal. f_equal. lia.
Qed.

(** ** 16-bit tags *)

Lemma int16_range i : - 2 ^ 15 <= int16 i < 2 ^ 15.
Proof. unfold int16. pose proof (Z.mod_pos_bound (i + 2 ^ 15) (2 ^ 16)). lia. Qed.

Lemma int16_small i : - 2 ^ 15 <= i < 2 ^ 15 → int16 i = i.
Proof. intros Hi. unfold int16. rewrite Z.mod_small; lia. Qed.

Lemma int16_idemp i : int16 (int16 i) = int16 i.
Proof. apply int16_small, int16_range. Qed.

Lemma int16_mod i : int16 (i mod 2 ^ 16) = int16 i.
Proof.
  unfold int16. f_equal.
  rewrite <- (Zplus_mod_idemp_l i). done.
Qed.

Lemma get_put_int16 x : get_int16 (put_int16 x) = int16 x.
Proof.
  unfold get_int16, put_int16. rewrite le_combine_split.
  change (Z.of_nat 2 * 8) with 16. apply int16_mod.
Qed.

Lemma length_put_int16 x : length (put_int16 x) = 2%nat.
Proof. apply length_le_split. Qed.

Lemma int16_inj_lt i j :
  0 <= i < 2 ^ 16 → 0 <= j < 2 ^ 16 → int16 i = int16 j → i = j.
Proof.
  unfold int16. intros Hi Hj Heq.
  assert (Hm : (i + 2 ^ 15) mod 2 ^ 16 = (j + 2 ^ 15) mod 2 ^ 16) by lia.
  destruct (decide (i < 2 ^ 15)), (decide (j < 2 ^ 15)).
  - rewrite !Z.mod_small in Hm by lia. lia.
  - rewrite (Z.mod_small (i + _)) in Hm by lia.
    replace (j + 2 ^ 15) with (j - 2 ^ 15 + 1 * 2 ^ 16) in Hm by lia.
    rewrite Z_mod_plus_full, Z.mod_small in Hm by lia. lia.
  - rewrite (Z.mod_small (j + _)) in Hm by lia.
    replace (i + 2 ^ 15) with (i - 2 ^ 15 + 1 * 2 ^ 16) in Hm by lia.
    rewrite Z_mod_plus_full, Z.mod_small in Hm by lia. lia.
  - replace (j + 2 ^ 15) with (j - 2 ^ 15 + 1 * 2 ^ 16) in Hm by lia.
    replace (i + 2 ^ 15) with (i - 2 ^ 15 + 1 * 2 ^ 16) in Hm by lia.
    rewrite !Z_mod_plus_full, !Z.mod_small in Hm by lia. lia.
Qed.

(** ** Layout *)

Lemma RoundUp_bounds o a : 0 < a → o <= unsafe.RoundUp o a < o + a.
Proof.
  intros Ha. unfold unsafe.RoundUp.
  pose proof (Z.div_mod (o + a - 1) a).
  pose proof (Z.mod_pos_bound (o + a - 1) a). nia.
Qed.

Lemma foldr_max_ge (l : list Z) : 1 <= foldr Z.max 1 l.
Proof. induction l; simpl; lia. Qed.

Lemma Alignof_pos T : 1 <= unsafe.Alignof T.
Proof.
  induction T; simpl; try lia. apply foldr_max_ge.
Qed.

Lemma Offsetof_buf_eq B :
  Offsetof_buf B = unsafe.RoundUp 3 (unsafe.Alignof B).
Proof. reflexivity. Qed.

Lemma Offsetof_buf_ge B : 3 <= Offsetof_buf B.
Proof.
  rewrite Offsetof_buf_eq. pose proof (Alignof_pos B).
  apply RoundUp_bounds. lia.
Qed.

Lemma Offsetof_buf_bytes n :
  Offsetof_buf (reflect.Array n reflect.Uint8) = 3.
Proof. reflexivity. Qed.

(** The local variable of [New] has room for the tag, the flag and the
    value behind them. *)
Lemma Sizeof_local Value :
  0 <= unsafe.Sizeof Value →
  3 + unsafe.Sizeof Value
    <= unsafe.Sizeof (reflect.Struct (UnionMethods Value)).
Proof.
  intros Hs. pose proof (Alignof_pos Value) as Ha.
  change (unsafe.Sizeof (reflect.Struct (UnionMethods Value)))
    with (unsafe.struct_size
            [(2, 2); (1, 1); (unsafe.Alignof Value, unsafe.Sizeof Value)]).
  unfold unsafe.struct_size.
  change (unsafe.layout 0 _)
    with (unsafe.RoundUp 3 (unsafe.Alignof Value) + unsafe.Sizeof Value).
  pose proof (RoundUp_bounds 3 (unsafe.Alignof Value)).
  set (end_ := unsafe.RoundUp 3 _ + _) in *.
  set (al := foldr Z.max 1 _).
  assert (1 <= al) by apply foldr_max_ge.
  match goal with |- _ <= unsafe.RoundUp ?s _ =>
    pose proof (RoundUp_bounds s al); assert (end_ <= s)
  end.
  { case_match; lia. }
  lia.
Qed.

Lemma buffer_type_bytes B n :
  buffer_len B = Some n → buffer_type B = reflect.Array n reflect.Uint8.
Proof. unfold buffer_type. by intros ->. Qed.

Lemma Sizeof_Union U n :
  buffer_len (Buf U) = Some n →
  unsafe.Sizeof (Union U) = Z.of_nat n + 4.
Proof.
  unfold Union, buffer_type. destruct (Buf U); intros [= <-]; reflexivity.
Qed.

Lemma length_zero T : length (zero T) = Z.to_nat (unsafe.Sizeof T).
Proof. apply length_replicate. Qed.

(** ** Derivation *)

Lemma load_loadable Value field tag' direct buf offset :
  loadable direct buf Value = true →
  load Value field tag' direct buf offset
  = Ret {| tag := tag'; set := offset; any := negb direct |}.
Proof.
  unfold loadable, load. intros Hl.
  assert (HV : reflect.TypeOf_zero Value = Some Value)
    by (destruct Value; done).
  assert (Hl' : negb direct
                || negb (hasPointers Value) && (unsafe.Sizeof Value <=? buf)
                = true) by (destruct Value; done).
  rewrite HV. clear Hl HV. cbn [hasPointers_call mbind outcome_bind].
  destruct direct; cbn [negb orb] in Hl'.
  - apply andb_prop in Hl' as [Hp Hs].
    apply negb_true_iff in Hp. rewrite Hp. apply Z.leb_le in Hs.
    destruct (_ >? buf) eqn:E; [apply Z.gtb_lt in E; lia | done].
  - by rewrite andb_false_r.
Qed.

Lemma load_not_loadable Value field tag' direct buf offset :
  loadable direct buf Value = false →
  ∃ e, load Value field tag' direct buf offset = Panic e.
Proof.
  unfold loadable, load. intros Hl.
  destruct (decide (Value = reflect.Interface)) as [->|HV]; [by eexists|].
  assert (HT : reflect.TypeOf_zero Value = Some Value)
    by (destruct Value; done).
  rewrite HT. simpl.
  assert (Hl' : negb direct
                || negb (hasPointers Value) && (unsafe.Sizeof Value <=? buf)
                = false) by (destruct Value; done).
  apply orb_false_iff in Hl' as [Hd Hc]. apply negb_false_iff in Hd. subst.
  rewrite andb_true_r. simpl.
  destruct (hasPointers Value); [by eexists|]. simpl in *.
  apply Z.leb_gt in Hc.
  destruct (_ >? buf) eqn:E; [by eexists | rewrite Z.gtb_ltb in E; apply Z.ltb_ge in E; lia].
Qed.

Lemma values_loop_Ret direct buf offset fields : ∀ i values,
  forallb (loadable direct buf) fields = true →
  Z.of_nat i + Z.of_nat (length fields) <= MaxInt32 + 1 →
  length values = (i + length fields)%nat →
  values_loop direct buf offset fields i values
  = Ret (take i values ++ (derived direct offset <$> seq i (length fields))).
Proof.
  induction fields as [|Value fields IH]; intros i values Hl Hn Hlen; simpl.
  - simpl in Hlen. rewrite app_nil_r, take_ge by lia. done.
  - simpl in *. apply andb_prop in Hl as [HV Hl].
    destruct (Z.of_nat i >? MaxInt32) eqn:E; [apply Z.gtb_lt in E; lia|].
    rewrite (load_loadable _ _ _ _ _ _ HV). simpl.
    rewrite IH by (rewrite ?length_insert; done || lia).
    f_equal.
    rewrite (take_S_r _ _ (derived direct offset i))
      by (apply list_lookup_insert_eq; lia).
    rewrite take_insert_ge by lia.
    by rewrite <- app_assoc.
Qed.

Lemma values_loop_Panic direct buf offset fields : ∀ i values,
  Z.of_nat i <= MaxInt32 + 1 →
  forallb (loadable direct buf) fields = false
  ∨ MaxInt32 + 1 < Z.of_nat i + Z.of_nat (length fields) →
  ∃ e, values_loop direct buf offset fields i values = Panic e.
Proof.
  induction fields as [|Value fields IH]; intros i values Hi Hbad; simpl in *.
  - destruct Hbad; [done | lia].
  - destruct (Z.of_nat i >? MaxInt32) eqn:E; [by eexists|].
    rewrite Z.gtb_ltb in E. apply Z.ltb_ge in E.
    destruct (loadable direct buf Value) eqn:HV.
    + rewrite (load_loadable _ _ _ _ _ _ HV). simpl.
      apply IH; [lia|]. destruct Hbad; [by left | right; lia].
    + destruct (load_not_loadable Value (default zero_Field (values !! i))
                  (int16 (Z.of_nat i)) direct buf offset HV) as [e ->].
      by eexists.
Qed.

Lemma Fields_any U union :
  Buf U = buf_any → Fields U union = Panic nil_dereference.
Proof. unfold Fields, values. by intros ->. Qed.

Lemma Fields_bytes U union n :
  buffer_len (Buf U) = Some n →
  Fields U union
  = values_loop true (Z.of_nat n) 3 (Values U) 0
      (replicate (length (Values U)) zero_Field).
Proof.
  intros Hn. unfold Fields, values.
  rewrite (buffer_type_bytes _ _ Hn). simpl.
  by rewrite Z.mul_1_r.
Qed.

Lemma Fields_derivable U union n :
  buffer_len (Buf U) = Some n → derivable n (Values U) →
  Fields U union = Ret (derived true 3 <$> seq 0 (length (Values U))).
Proof.
  intros Hn [Hl Hk]. rewrite (Fields_bytes _ _ _ Hn).
  rewrite values_loop_Ret; [done | done | lia | by rewrite length_replicate].
Qed.

Lemma Fields_not_derivable U union n :
  buffer_len (Buf U) = Some n → ¬ derivable n (Values U) →
  ∃ e, Fields U union = Panic e.
Proof.
  intros Hn Hnd. rewrite (Fields_bytes _ _ _ Hn).
  apply values_loop_Panic; [done|].
  destruct (forallb _ (Values U)) eqn:E; [right | by left].
  destruct (decide (Z.of_nat (length (Values U)) <= MaxInt32 + 1)); [|lia].
  destruct Hnd. by split.
Qed.

(** A successful derivation: the buffer is a byte array, every alternative
    is loadable, and the bundle holds [derived true 3 i] at index [i]. *)
Lemma Fields_Ret U union bundle :
  Fields U union = Ret bundle →
  ∃ n, buffer_len (Buf U) = Some n ∧ derivable n (Values U)
       ∧ bundle = derived true 3 <$> seq 0 (length (Values U)).
Proof.
  intros HF. destruct (buffer_len (Buf U)) as [n|] eqn:Hn.
  - exists n. split; [done|].
    destruct (decide (derivable n (Values U))) as [Hd|Hd].
    + split; [done|]. rewrite (Fields_derivable _ _ _ Hn Hd) in HF. congruence.
    + destruct (Fields_not_derivable _ union _ Hn Hd) as [e He]. congruence.
  - rewrite Fields_any in HF; [done | by destruct (Buf U)].
Qed.

(** The accessor of index [i] in a derived bundle. *)
Lemma Fields_accessor U union bundle i Value f :
  Fields U union = Ret bundle →
  Values U !! i = Some Value → bundle !! i = Some f →
  ∃ n, buffer_len (Buf U) = Some n
       ∧ f = derived true 3 i
       ∧ hasPointers Value = false
       ∧ unsafe.Sizeof Value <= Z.of_nat n.
Proof.
  intros HF HV Hf. apply Fields_Ret in HF as (n & Hn & [Hl _] & ->).
  exists n. split; [done|].
  rewrite list_lookup_fmap in Hf.
  apply lookup_lt_Some in HV as Hi.
  rewrite lookup_seq_lt in Hf by done. simpl in Hf. split; [congruence|].
  rewrite forallb_forall in Hl.
  assert (HL : loadable true (Z.of_nat n) Value = true).
  { apply Hl. apply list_elem_of_In. by eapply list_elem_of_lookup_2. }
  unfold loadable in HL. simpl in HL.
  assert (HL' : negb (hasPointers Value)
                && (unsafe.Sizeof Value <=? Z.of_nat n) = true)
    by (destruct Value; done).
  apply andb_prop in HL' as [Hp Hs].
  apply negb_true_iff in Hp. apply Z.leb_le in Hs. done.
Qed.

(** ** Inline storage *)

Lemma take_mem_read m p n (k : nat) :
  Z.of_nat k <= n → take k (mem_read m p n) = mem_read m p (Z.of_nat k).
Proof.
  intros Hk. unfold mem_read. rewrite <- fmap_take. f_equal.
  rewrite take_seq. f_equal. lia.
Qed.

Lemma drop_mem_read m p n (k : nat) :
  drop k (mem_read m p n) = mem_read m (p + Z.of_nat k) (n - Z.of_nat k).
Proof.
  apply list_eq. intros j. rewrite lookup_drop.
  destruct (decide (Z.of_nat (k + j) < n)) as [Hj|Hj].
  - rewrite !mem_read_lookup by lia. f_equal. f_equal. lia.
  - rewrite !lookup_ge_None_2; [done | rewrite length_mem_read; lia ..].
Qed.

Lemma mem_read_placed ambient bytes (k : nat) :
  (k <= length bytes)%nat →
  mem_read (mem_write ambient 0 bytes) 0 (Z.of_nat k) = take k bytes.
Proof.
  intros Hk.
  rewrite <- (mem_read_write_same ambient 0 bytes) at 2.
  by rewrite take_mem_read by lia.
Qed.

Lemma New_direct U n Value f ambient value :
  buffer_len (Buf U) = Some n → set f ≠ 0 → any f = false →
  New U Value f ambient value
  = Ret (Raw (mem_read (New_memory Value f ambient value) 0
                       (unsafe.Sizeof (Union U)))).
Proof.
  intros Hn Hs Ha. unfold New. rewrite Ha.
  apply Z.eqb_neq in Hs. rewrite Hs.
  revert Hn. destruct (Buf U); done.
Qed.

Lemma Lookup_direct U Value f ambient bytes :
  set f ≠ 0 → any f = false →
  Lookup U Value f ambient (Raw bytes)
  = if get_int16 (mem_read (mem_write ambient 0 bytes) 0 2) =? tag f
    then Ret (mem_read (mem_write ambient 0 bytes) (set f)
                       (unsafe.Sizeof Value), true)
    else Ret (zero Value, false).
Proof.
  intros Hs Ha. unfold Lookup. rewrite Ha.
  apply Z.eqb_neq in Hs. rewrite Hs. cbv zeta.
  by destruct (_ =? tag f).
Qed.

Lemma New_memory_tag Value f ambient value :
  3 <= set f →
  mem_read (New_memory Value f ambient value) 0 2 = put_int16 (tag f).
Proof.
  intros Hs. unfold New_memory.
  rewrite mem_read_write_other by lia.
  apply (mem_read_write_same _ 0 (put_int16 (tag f))).
Qed.

Lemma New_memory_any Value f ambient value :
  3 <= set f → 0 <= unsafe.Sizeof Value →
  mem_read (New_memory Value f ambient value) 2 1 = [Byte.x00].
Proof.
  intros Hs HV. unfold New_memory.
  rewrite mem_read_write_other by lia.
  rewrite mem_read_write_other by (rewrite length_put_int16; lia).
  pose proof (Sizeof_local Value HV) as HL.
  apply list_eq. intros [|k]; [|done].
  rewrite mem_read_lookup by lia.
  rewrite (mem_write_inside _ _ _ _ 2) by (rewrite ?length_zero; lia).
  unfold zero. rewrite lookup_replicate_2; [done | lia].
Qed.

Lemma New_memory_value Value f ambient value :
  mem_read (New_memory Value f ambient value) (set f)
           (Z.of_nat (length value)) = value.
Proof. apply mem_read_write_same. Qed.

(** The tag and the flag of the union that [New] builds inline. *)
Lemma getTag_New_memory U n Value f ambient value :
  buffer_len (Buf U) = Some n → 3 <= set f → 0 <= unsafe.Sizeof Value →
  getTag U (Raw (mem_read (New_memory Value f ambient value) 0
                          (unsafe.Sizeof (Union U))))
  = {| tag := int16 (tag f); set := 3; any := false |}.
Proof.
  intros Hn Hs HV. unfold getTag.
  rewrite (Sizeof_Union _ _ Hn), (buffer_type_bytes _ _ Hn), Offsetof_buf_bytes.
  rewrite drop_mem_read, !take_mem_read by lia.
  rewrite New_memory_tag, New_memory_any by done.
  by rewrite get_put_int16.
Qed.

(** [Lookup] reads the tag that [getTag] reads. *)
Lemma Lookup_tag ambient bytes :
  (2 <= length bytes)%nat →
  get_int16 (mem_read (mem_write ambient 0 bytes) 0 2)
  = get_int16 (take 2 bytes).
Proof. intros Hl. by rewrite (mem_read_placed _ _ 2). Qed.

(** ** Claims about derived accessors *)

(** [New] through a derived accessor returns, and the union it returns is
    characterised by the memory it was read from. *)
Lemma New_derived U union bundle i Value f ambient value :
  Fields U union = Ret bundle →
  Values U !! i = Some Value → bundle !! i = Some f →
  ∃ n, buffer_len (Buf U) = Some n
       ∧ f = derived true 3 i
       ∧ unsafe.Sizeof Value <= Z.of_nat n
       ∧ New U Value f ambient value
         = Ret (Raw (mem_read (New_memory Value f ambient value) 0
                              (Z.of_nat n + 4))).
Proof.
  intros HF HV Hf.
  destruct (Fields_accessor _ _ _ _ _ _ HF HV Hf) as (n & Hn & -> & _ & Hs).
  exists n. repeat split; try done.
  rewrite (New_direct U n) by done. by rewrite (Sizeof_Union _ _ Hn).
Qed.

(** C1. Round trip: through an accessor of a derived bundle, [Get] of the
    union built by [New] from a value [v] of the accessor's value type
    returns [v], byte for byte, whatever memory surrounds the two calls. *)
Theorem Get_New_roundtrip U union bundle i Value f ambient ambient' v :
  Fields U union = Ret bundle →
  Values U !! i = Some Value → bundle !! i = Some f →
  Z.of_nat (length v) = unsafe.Sizeof Value →
  ∃ u, New U Value f ambient v = Ret u
       ∧ Get U Value f ambient' u = Ret v.
Proof.
  intros HF HV Hf Hv.
  destruct (New_derived _ _ _ _ _ _ ambient v HF HV Hf)
    as (n & Hn & -> & Hs & HN).
  eexists. split; [exact HN|].
  unfold Get. rewrite Lookup_direct by done.
  rewrite !mem_read_copy by (simpl; lia).
  rewrite New_memory_tag, get_put_int16 by (simpl; lia).
  simpl. rewrite int16_idemp, Z.eqb_refl. simpl.
  rewrite <- Hv. f_equal. apply (New_memory_value Value (derived true 3 i)).
Qed.

Lemma Get_New_roundtrip_witness :
  ∃ u, New {| Buf := buf_8byte;
              Values := [reflect.Float32; reflect.Float64] |}
           reflect.Float32 {| tag := 0; set := 3; any := false |}
           (λ _, Byte.xff) [Byte.xdb; Byte.x0f; Byte.x49; Byte.x40] = Ret u
       ∧ Get {| Buf := buf_8byte;
                Values := [reflect.Float32; reflect.Float64] |}
             reflect.Float32 {| tag := 0; set := 3; any := false |}
             (λ _, Byte.x00) u
         = Ret [Byte.xdb; Byte.x0f; Byte.x49; Byte.x40].
Proof.
  apply (Get_New_roundtrip
           {| Buf := buf_8byte;
              Values := [reflect.Float32; reflect.Float64] |}
           (Raw []) [{| tag := 0; set := 3; any := false |};
                     {| tag := 1; set := 3; any := false |}] 0);
    reflexivity.
Defined.

(** The boxed path of [New] and [Get], for a descriptor filled in the way
    [load] fills one when the buffer is not an array. *)
Lemma Get_New_boxed U Value f ambient ambient' v :
  Buf U = buf_any → set f ≠ 0 → any f = true →
  Value ≠ reflect.Interface →
  New U Value f ambient v = Ret (Boxed (tag f) true (Some (Value, v)))
  ∧ Get U Value f ambient' (Boxed (tag f) true (Some (Value, v))) = Ret v.
Proof.
  intros HB Hs Ha HV. apply Z.eqb_neq in Hs.
  unfold Get, Lookup, New. rewrite HB, Hs, Ha, Z.eqb_refl. simpl.
  rewrite decide_True by done.
  split; by destruct Value.
Qed.

(** C3. Discriminant fidelity: [FieldOf] of the union built by [New]
    through a derived accessor is that accessor's own descriptor: same
    tag, same offset, same boxed flag. *)
Theorem FieldOf_New U union bundle i Value f ambient v :
  Fields U union = Ret bundle →
  Values U !! i = Some Value → bundle !! i = Some f →
  Z.of_nat (length v) = unsafe.Sizeof Value →
  ∃ u, New U Value f ambient v = Ret u ∧ FieldOf U u = f.
Proof.
  intros HF HV Hf Hv.
  destruct (New_derived _ _ _ _ _ _ ambient v HF HV Hf)
    as (n & Hn & -> & Hs & HN).
  eexists. split; [exact HN|].
  unfold FieldOf. rewrite <- (Sizeof_Union _ _ Hn).
  rewrite (getTag_New_memory _ n) by (simpl; lia || done).
  simpl. by rewrite int16_idemp.
Qed.

Lemma FieldOf_New_witness :
  ∃ u, New {| Buf := buf_8byte;
              Values := [reflect.Float32; reflect.Float64] |}
           reflect.Float64 {| tag := 1; set := 3; any := false |}
           (λ _, Byte.xff)
           [Byte.x18; Byte.x2d; Byte.x44; Byte.x54;
            Byte.xfb; Byte.x21; Byte.x09; Byte.x40] = Ret u
       ∧ FieldOf {| Buf := buf_8byte;
                    Values := [reflect.Float32; reflect.Float64] |} u
         = {| tag := 1; set := 3; any := false |}.
Proof.
  apply (FieldOf_New
           {| Buf := buf_8byte;
              Values := [reflect.Float32; reflect.Float64] |}
           (Raw []) [{| tag := 0; set := 3; any := false |};
                     {| tag := 1; set := 3; any := false |}] 1);
    reflexivity.
Defined.

(** [Lookup] through any accessor with inline storage, on the union that
    [New] built through another. *)
Lemma Lookup_New_memory U n ValueA fA ValueB fB ambient ambient' v :
  3 <= set fA → set fB = 3 → any fB = false →
  unsafe.Sizeof ValueB <= Z.of_nat n →
  Lookup U ValueB fB ambient'
    (Raw (mem_read (New_memory ValueA fA ambient v) 0 (Z.of_nat n + 4)))
  = if int16 (tag fA) =? tag fB
    then Ret (mem_read (New_memory ValueA fA ambient v) 3
                       (unsafe.Sizeof ValueB), true)
    else Ret (zero ValueB, false).
Proof.
  intros HA HB Hany Hs.
  rewrite Lookup_direct by (done || lia).
  rewrite HB, !mem_read_copy by lia.
  by rewrite New_memory_tag, get_put_int16 by lia.
Qed.

(** Mismatch safety between two accessors of a derived bundle whose tags
    differ: [Lookup] through the second, on a union built through the
    first, finds nothing and returns the zero value. *)
Lemma Lookup_other U union bundle i j ValueA ValueB fA fB ambient ambient' v :
  Fields U union = Ret bundle →
  Values U !! i = Some ValueA → bundle !! i = Some fA →
  Values U !! j = Some ValueB → bundle !! j = Some fB →
  tag fA ≠ tag fB →
  ∃ u, New U ValueA fA ambient v = Ret u
       ∧ Lookup U ValueB fB ambient' u = Ret (zero ValueB, false).
Proof.
  intros HF HVA HfA HVB HfB Hne.
  destruct (New_derived _ _ _ _ _ _ ambient v HF HVA HfA)
    as (n & Hn & -> & _ & HN).
  destruct (Fields_accessor _ _ _ _ _ _ HF HVB HfB) as (n' & Hn' & -> & _ & Hs).
  assert (n' = n) as -> by congruence.
  eexists. split; [exact HN|].
  rewrite (Lookup_New_memory U n) by (simpl; lia || done).
  simpl in *. rewrite int16_idemp.
  by destruct (Z.eqb_spec (int16 (Z.of_nat i)) (int16 (Z.of_nat j))).
Qed.

(** Tags of a derived bundle are pairwise distinct among the first 65,536
    alternatives. *)
Lemma derived_tag_inj direct offset i j :
  Z.of_nat i < 2 ^ 16 → Z.of_nat j < 2 ^ 16 →
  tag (derived direct offset i) = tag (derived direct offset j) → i = j.
Proof.
  simpl. intros Hi Hj Ht. apply int16_inj_lt in Ht; lia.
Qed.

(** The first half of C2, on the code as it is: [Lookup] through a derived
    accessor returns on every value of the union type; it finds the
    alternative exactly when the union's tag is the accessor's, and hands
    out the zero value otherwise. *)
Lemma Lookup_found_iff U union bundle i Value f ambient bytes :
  Fields U union = Ret bundle →
  Values U !! i = Some Value → bundle !! i = Some f →
  Z.of_nat (length bytes) = unsafe.Sizeof (Union U) →
  ∃ value found,
    Lookup U Value f ambient (Raw bytes) = Ret (value, found)
    ∧ (found = true ↔ tag (FieldOf U (Raw bytes)) = tag f)
    ∧ (found = false → value = zero Value).
Proof.
  intros HF HV Hf Hb.
  destruct (Fields_accessor _ _ _ _ _ _ HF HV Hf) as (n & Hn & -> & _ & Hs).
  rewrite (Sizeof_Union _ _ Hn) in Hb.
  rewrite Lookup_direct by done.
  rewrite Lookup_tag by lia. simpl.
  destruct (Z.eqb_spec (get_int16 (take 2 bytes)) (int16 (Z.of_nat i)));
    eexists _, _; (split; [done|]); split; done.
Qed.

Lemma forallb_replicate {A} (p : A → bool) n x :
  p x = true → forallb p (replicate n x) = true.
Proof. intros Hp. induction n; simpl; [done | by rewrite Hp]. Qed.

Lemma Fields_replicate_Uint8 B n k union :
  buffer_len B = Some n → (0 < n)%nat → Z.of_nat k <= MaxInt32 + 1 →
  Fields {| Buf := B; Values := replicate k reflect.Uint8 |} union
  = Ret (derived true 3 <$> seq 0 k).
Proof.
  intros HB Hn Hk.
  rewrite (Fields_derivable {| Buf := B; Values := _ |} _ n HB); simpl.
  - by rewrite length_replicate.
  - split; [|by rewrite length_replicate].
    apply forallb_replicate. unfold loadable. simpl.
    apply Z.leb_le. lia.
Qed.

(** Two accessors of one bundle that were given the same tag: [Lookup]
    through the second finds the value stored through the first. *)
Lemma Lookup_same_tag B n k j union ambient ambient' v :
  buffer_len B = Some n → (0 < n)%nat → Z.of_nat k <= MaxInt32 + 1 →
  (0 < k)%nat → (j < k)%nat → int16 (Z.of_nat j) = 0 →
  length v = 1%nat →
  ∃ bundle fA fB u,
    Fields {| Buf := B; Values := replicate k reflect.Uint8 |} union
    = Ret bundle
    ∧ bundle !! 0%nat = Some fA
    ∧ bundle !! j = Some fB
    ∧ New {| Buf := B; Values := replicate k reflect.Uint8 |}
          reflect.Uint8 fA ambient v = Ret u
    ∧ Lookup {| Buf := B; Values := replicate k reflect.Uint8 |}
             reflect.Uint8 fB ambient' u = Ret (v, true).
Proof.
  intros HB Hn Hk Hk0 Hj Htag Hv.
  set (U := {| Buf := B; Values := replicate k reflect.Uint8 |}).
  pose proof (Fields_replicate_Uint8 B n k union HB Hn Hk) as HF.
  fold U in HF.
  assert (HA : (derived true 3 <$> seq 0 k) !! 0%nat
               = Some (derived true 3 0)).
  { by rewrite list_lookup_fmap, lookup_seq_lt by lia. }
  assert (HJ : (derived true 3 <$> seq 0 k) !! j = Some (derived true 3 j)).
  { by rewrite list_lookup_fmap, lookup_seq_lt by lia. }
  assert (HV : Values U !! 0%nat = Some reflect.Uint8).
  { apply lookup_replicate_2. lia. }
  destruct (New_derived _ _ _ _ _ _ ambient v HF HV HA)
    as (n' & Hn' & _ & _ & HN).
  assert (n' = n) as -> by (cbn in Hn'; congruence).
  eexists _, _, _, _. repeat split; [exact HF | exact HA | exact HJ | exact HN |].
  rewrite (Lookup_New_memory U n) by (cbn; lia || done).
  cbn [tag derived]. rewrite Htag. cbn.
  f_equal. f_equal.
  change 1 with (Z.of_nat 1). rewrite <- Hv.
  apply (New_memory_value reflect.Uint8 (derived true 3 0) ambient v).
Qed.

(** C2, where the code departs from it.  In a union of 65,537
    alternatives the last accessor carries the tag of the first, so its
    [Lookup] on a union built through the first one finds a value instead
    of returning the zero value and false. *)
Theorem Lookup_other_collision union ambient ambient' :
  ∃ bundle fA fB u,
    Fields Wide union = Ret bundle
    ∧ bundle !! 0%nat = Some fA
    ∧ bundle !! Z.to_nat 65536 = Some fB
    ∧ New Wide reflect.Uint8 fA ambient [Byte.x2a] = Ret u
    ∧ Lookup Wide reflect.Uint8 fB ambient' u = Ret ([Byte.x2a], true).
Proof.
  unfold Wide.
  apply (Lookup_same_tag buf_4byte 4 (Z.to_nat 65537) (Z.to_nat 65536)).
  - reflexivity.
  - lia.
  - unfold MaxInt32. lia.
  - lia.
  - lia.
  - rewrite Z2Nat.id by lia. reflexivity.
  - reflexivity.
Qed.

(** ** Derivation faults *)

(** C4, where the code departs from it.  Over the buffer [any] the
    derivation never returns: [reflect.TypeOf] of the nil interface is the
    nil type, and asking it for its kind panics before any alternative is
    visited. *)
Theorem Fields_any_buffer_panics alternatives union :
  Fields {| Buf := buf_any; Values := alternatives |} union
  = Panic nil_dereference.
Proof. by apply Fields_any. Qed.

(** The same slip in [load]: an alternative of interface type stops the
    derivation whatever the buffer is. *)
Lemma load_Interface field tag' direct buf offset :
  load reflect.Interface field tag' direct buf offset = Panic nil_dereference.
Proof. reflexivity. Qed.

(** C5, where the code departs from it.  With 65,536 alternatives the
    derivation returns a bundle of 65,536 descriptors; the guard of the
    loop compares the index with [MaxInt32].  The tag of the last
    alternative is [int16 65535], which is -1. *)
Theorem Fields_65536_returns union :
  ∃ bundle,
    Fields Full union = Ret bundle
    ∧ Z.of_nat (length bundle) = 65536
    ∧ bundle !! Z.to_nat 65535 = Some {| tag := -1; set := 3; any := false |}.
Proof.
  unfold Full. eexists. split; [|split].
  - apply (Fields_replicate_Uint8 buf_4byte 4); [reflexivity | lia |].
    unfold MaxInt32. lia.
  - rewrite length_fmap, length_seq. lia.
  - rewrite list_lookup_fmap, lookup_seq_lt by lia.
    cbn [fmap option_fmap option_map plus]. unfold derived.
    rewrite Z2Nat.id by lia. reflexivity.
Qed.

(** X4. What the derivation does assign: the tag of the alternative of index
    [i] is [int16 i]. It is [i] itself below 32,768, [i - 65536] from
    there to 65,535, and tags are pairwise distinct below 65,536. *)
Lemma Fields_tags U union bundle :
  Fields U union = Ret bundle →
  length bundle = length (Values U)
  ∧ ∀ i f, bundle !! i = Some f →
      tag f = int16 (Z.of_nat i)
      ∧ (Z.of_nat i < 2 ^ 15 → tag f = Z.of_nat i)
      ∧ (2 ^ 15 <= Z.of_nat i < 2 ^ 16 → tag f = Z.of_nat i - 2 ^ 16)
      ∧ ∀ j g, bundle !! j = Some g →
          Z.of_nat i < 2 ^ 16 → Z.of_nat j < 2 ^ 16 →
          tag f = tag g → i = j.
Proof.
  intros HF. apply Fields_Ret in HF as (n & Hn & Hd & ->).
  split; [by rewrite length_fmap, length_seq|].
  intros i f Hf.
  apply lookup_lt_Some in Hf as Hi. rewrite length_fmap, length_seq in Hi.
  rewrite list_lookup_fmap, lookup_seq_lt in Hf by done.
  injection Hf as <-. cbn [tag derived].
  split; [done|]. split; [|split].
  - intros Hlt. apply int16_small. lia.
  - intros Hr. unfold int16.
    replace (Z.of_nat i + 2 ^ 15)
      with (Z.of_nat i - 2 ^ 15 + 1 * 2 ^ 16) by lia.
    rewrite Z_mod_plus_full, Z.mod_small; lia.
  - intros j g Hg Hi' Hj' Ht.
    apply lookup_lt_Some in Hg as Hj. rewrite length_fmap, length_seq in Hj.
    rewrite list_lookup_fmap, lookup_seq_lt in Hg by done.
    injection Hg as <-. by apply derived_tag_inj in Ht.
Qed.

Lemma hasPointers_complete T : contains_pointer T → hasPointers T = true.
Proof.
  induction 1 as [T HT|fields F Hin _ IH|len elem _ IH]; simpl.
  - by destruct HT.
  - apply existsb_exists. exists F. split; [|done]. by apply list_elem_of_In.
  - done.
Qed.

Lemma hasPointers_sound T : hasPointers T = true → contains_pointer T.
Proof.
  revert T. fix IH 1. intros [ | | | | | | | | | | | | | | | | | | | | | | |
                              |len elem|fields]; simpl; try done;
    try (intros _; apply cp_here; constructor).
  - intros H. apply cp_elem, IH, H.
  - intros H. induction fields as [|F fields IHf]; simpl in H; [done|].
    apply orb_prop in H as [H|H].
    + apply (cp_field _ F); [left | apply IH, H].
    + specialize (IHf H). inversion IHf as [? HT|? F' Hin HF|]; subst.
      * inversion HT.
      * apply (cp_field _ F'); [by right | done].
Qed.

Lemma not_loadable_pointer n Value :
  contains_pointer Value ∨ n < unsafe.Sizeof Value →
  loadable true n Value = false.
Proof.
  intros Hbad. unfold loadable.
  assert (negb (hasPointers Value) && (unsafe.Sizeof Value <=? n) = false).
  { destruct Hbad as [Hp|Hs].
    - by rewrite (hasPointers_complete _ Hp).
    - apply andb_false_iff. right. apply Z.leb_gt. lia. }
  destruct Value; done.
Qed.

(** C6. Declaration-time faults.  Over a buffer of [n] bytes the
    derivation panics as soon as one alternative contains pointer-like
    data or is larger than [n] bytes.  Nothing is checked again at use:
    through an accessor of a derived bundle, [New] and [Lookup] return for
    every value type, whatever its shape and size. *)
Theorem declaration_faults U n :
  buffer_len (Buf U) = Some n →
  (∀ union Value,
     Value ∈ Values U →
     contains_pointer Value ∨ Z.of_nat n < unsafe.Sizeof Value →
     ∃ e, Fields U union = Panic e)
  ∧ (∀ union bundle f,
       Fields U union = Ret bundle → f ∈ bundle →
       ∀ Value ambient,
         (∀ v, ∃ u, New U Value f ambient v = Ret u)
         ∧ (∀ bytes, ∃ r, Lookup U Value f ambient (Raw bytes) = Ret r)).
Proof.
  intros Hn. split.
  - intros union Value Hin Hbad.
    apply (Fields_not_derivable _ _ n Hn). intros [Hl _].
    rewrite forallb_forall in Hl.
    apply list_elem_of_In, Hl in Hin.
    by rewrite not_loadable_pointer in Hin.
  - intros union bundle f HF Hf Value ambient.
    apply Fields_Ret in HF as (n' & _ & _ & ->).
    apply list_elem_of_fmap in Hf as (i & -> & _).
    split.
    + intros v. eexists. by apply (New_direct U n).
    + intros bytes. rewrite Lookup_direct by done. case_match; by eexists.
Qed.

Lemma declaration_faults_witness :
  (∃ e, Fields {| Buf := buf_4byte;
                  Values := [reflect.Float32; reflect.Slice] |}
               (Raw []) = Panic e)
  ∧ (∃ e, Fields {| Buf := buf_4byte;
                    Values := [reflect.Float32; reflect.Float64] |}
                 (Raw []) = Panic e)
  ∧ (∃ u, New {| Buf := buf_8byte;
                 Values := [reflect.Float32; reflect.Float64] |}
              reflect.Slice {| tag := 1; set := 3; any := false |}
              (λ _, Byte.x00) (replicate 24 Byte.x01) = Ret u).
Proof.
  split; [|split].
  - apply (proj1 (declaration_faults
                    {| Buf := buf_4byte;
                       Values := [reflect.Float32; reflect.Slice] |}
                    4 eq_refl) (Raw []) reflect.Slice).
    + right. left.
    + left. apply cp_here. constructor.
  - apply (proj1 (declaration_faults
                    {| Buf := buf_4byte;
                       Values := [reflect.Float32; reflect.Float64] |}
                    4 eq_refl) (Raw []) reflect.Float64).
    + right. left.
    + right. simpl. lia.
  - apply (proj2 (declaration_faults
                    {| Buf := buf_8byte;
                       Values := [reflect.Float32; reflect.Float64] |}
                    8 eq_refl) (Raw [])
                 [{| tag := 0; set := 3; any := false |};
                  {| tag := 1; set := 3; any := false |}]
                 {| tag := 1; set := 3; any := false |} eq_refl).
    right. left.
Defined.

(** ** Uninitialized descriptors *)

(** C7. A descriptor whose offset is still zero, as in the zero value of
    [As], makes [New], [Get] and [Lookup] panic with the message of the
    uninitialized descriptor.  That message is not the one [Get] panics
    with when [Lookup] does not find the alternative. *)
Theorem uninitialized_faults U Value f ambient v union :
  set f = 0 →
  New U Value f ambient v = Panic not_initialized
  ∧ Get U Value f ambient union = Panic not_initialized
  ∧ Lookup U Value f ambient union = Panic not_initialized
  ∧ not_initialized ≠ wrong_tag
  ∧ ∀ f' union' value,
      Lookup U Value f' ambient union' = Ret (value, false) →
      Get U Value f' ambient union' = Panic wrong_tag.
Proof.
  intros Hs.
  assert (HL : Lookup U Value f ambient union = Panic not_initialized)
    by (unfold Lookup; by rewrite Hs).
  split; [unfold New; by rewrite Hs|].
  split; [unfold Get; by rewrite HL|].
  split; [done|]. split; [done|].
  intros f' union' value HL'. unfold Get. by rewrite HL'.
Qed.

Lemma uninitialized_faults_witness :
  set zero_Field = 0
  ∧ New {| Buf := buf_8byte; Values := [reflect.Float32] |}
        reflect.Float32 zero_Field (λ _, Byte.x00)
        [Byte.x00; Byte.x00; Byte.x80; Byte.x3f]
    = Panic not_initialized
  ∧ Get {| Buf := buf_8byte; Values := [reflect.Float32] |}
        reflect.Float32 zero_Field (λ _, Byte.x00) (Raw (replicate 12 Byte.x00))
    = Panic not_initialized
  ∧ Lookup {| Buf := buf_8byte; Values := [reflect.Float32] |}
        reflect.Float32 zero_Field (λ _, Byte.x00) (Raw (replicate 12 Byte.x00))
    = Panic not_initialized.
Proof.
  split; [reflexivity|].
  pose proof (uninitialized_faults
                {| Buf := buf_8byte; Values := [reflect.Float32] |}
                reflect.Float32 zero_Field (λ _, Byte.x00)
                [Byte.x00; Byte.x00; Byte.x80; Byte.x3f]
                (Raw (replicate 12 Byte.x00)) eq_refl)
    as (HN & HG & HL & _).
  exact (conj HN (conj HG HL)).
Defined.

(** ** The zero union *)

(** C8. Zero-value default: over a byte buffer the zero value of the union
    has tag 0; once the bundle is derived, [FieldOf] of the zero union is
    the descriptor of the first alternative, and [Lookup] through the
    first accessor finds the alternative there. *)
Theorem zero_union_first U union bundle Value f ambient :
  Fields U union = Ret bundle →
  Values U !! 0%nat = Some Value → bundle !! 0%nat = Some f →
  tag (FieldOf U (zero_union U)) = 0
  ∧ FieldOf U (zero_union U) = f
  ∧ Lookup U Value f ambient (zero_union U) = Ret (zero Value, true).
Proof.
  intros HF HV Hf.
  destruct (Fields_accessor _ _ _ _ _ _ HF HV Hf) as (n & Hn & -> & _ & Hs).
  assert (HZ : zero_union U = Raw (replicate (n + 4) Byte.x00)).
  { unfold zero_union, zero. rewrite (Sizeof_Union _ _ Hn).
    replace (Z.to_nat (Z.of_nat n + 4)) with (n + 4)%nat by lia.
    revert Hn. by destruct (Buf U). }
  assert (HT : FieldOf U (zero_union U) = derived true 3 0).
  { rewrite HZ. unfold FieldOf, getTag.
    rewrite (buffer_type_bytes _ _ Hn), Offsetof_buf_bytes.
    replace (n + 4)%nat with (S (S (S (S n)))) by lia. reflexivity. }
  rewrite HT. repeat split.
  rewrite HZ, Lookup_direct by done.
  rewrite (mem_read_placed _ _ 2) by (rewrite length_replicate; lia).
  rewrite take_replicate. replace (2 `min` (n + 4))%nat with 2%nat by lia.
  cbn [tag set derived]. change (get_int16 (replicate 2 Byte.x00) =? _) with true.
  cbv iota. f_equal. f_equal.
  apply list_eq. intros k. unfold zero.
  destruct (decide (Z.of_nat k < unsafe.Sizeof Value)) as [Hk|Hk].
  - rewrite mem_read_lookup by done.
    rewrite (mem_write_inside _ _ _ _ (3 + k))
      by (rewrite ?length_replicate; lia).
    rewrite !lookup_replicate_2; [done | lia ..].
  - rewrite !lookup_ge_None_2;
      [done | rewrite ?length_mem_read, ?length_replicate; lia ..].
Qed.

Lemma zero_union_first_witness :
  FieldOf {| Buf := buf_8byte;
             Values := [reflect.Float32; reflect.Float64] |}
          (zero_union {| Buf := buf_8byte;
                         Values := [reflect.Float32; reflect.Float64] |})
  = {| tag := 0; set := 3; any := false |}
  ∧ Lookup {| Buf := buf_8byte;
              Values := [reflect.Float32; reflect.Float64] |}
           reflect.Float32 {| tag := 0; set := 3; any := false |}
           (λ _, Byte.xff)
           (zero_union {| Buf := buf_8byte;
                          Values := [reflect.Float32; reflect.Float64] |})
    = Ret (zero reflect.Float32, true).
Proof.
  apply (zero_union_first
           {| Buf := buf_8byte;
              Values := [reflect.Float32; reflect.Float64] |}
           (Raw []) [{| tag := 0; set := 3; any := false |};
                     {| tag := 1; set := 3; any := false |}]
           reflect.Float32 {| tag := 0; set := 3; any := false |}
           (λ _, Byte.xff)); reflexivity.
Defined.

(** ** Derivation again *)

(** C9. Idempotent re-derivation: a second call of [Fields], on any value
    of the same union type, returns a bundle with the same descriptors;
    and running the loop of [values] once more over the derived bundle, in
    place, leaves every descriptor as it is. *)
Theorem rederivation_idempotent U union union' bundle :
  Fields U union = Ret bundle →
  Fields U union' = Ret bundle
  ∧ ∃ direct,
      Kind_is_Array (reflect.TypeOf_zero (buffer_type (Buf U))) = Ret direct
      ∧ values_loop direct (unsafe.Sizeof (buffer_type (Buf U)))
          (Offsetof_buf (buffer_type (Buf U))) (Values U) 0 bundle
        = Ret bundle.
Proof.
  intros HF. apply Fields_Ret in HF as (n & Hn & Hd & ->).
  split; [by apply (Fields_derivable _ _ n)|].
  exists true. rewrite (buffer_type_bytes _ _ Hn). split; [done|].
  destruct Hd as [Hl Hk].
  rewrite Offsetof_buf_bytes. cbn [unsafe.Sizeof unsafe.Alignof].
  rewrite Z.mul_1_r.
  rewrite values_loop_Ret; [done | done | lia |].
  by rewrite length_fmap, length_seq.
Qed.

Lemma rederivation_idempotent_witness :
  Fields {| Buf := buf_8byte; Values := [reflect.Float32; reflect.Float64] |}
         (Raw (replicate 12 Byte.xff))
  = Ret [{| tag := 0; set := 3; any := false |};
         {| tag := 1; set := 3; any := false |}].
Proof.
  apply (rederivation_idempotent
           {| Buf := buf_8byte;
              Values := [reflect.Float32; reflect.Float64] |}
           (Raw [])).
  reflexivity.
Defined.

Lemma initialized_no_fault U Value f ambient v union :
  set f ≠ 0 →
  New U Value f ambient v ≠ Panic not_initialized
  ∧ Lookup U Value f ambient union ≠ Panic not_initialized
  ∧ Get U Value f ambient union ≠ Panic not_initialized.
Proof.
  intros Hs. apply Z.eqb_neq in Hs.
  assert (HL : Lookup U Value f ambient union ≠ Panic not_initialized).
  { unfold Lookup. rewrite Hs. repeat case_match; done. }
  split; [unfold New; rewrite Hs; repeat case_match; done|].
  split; [done|].
  unfold Get. destruct (Lookup U Value f ambient union) as [[value []]|e|];
    simpl; (done || congruence).
Qed.

(** C10. Offset sentinel: in [UnionMethods] the tag and the flag come
    before the buffer, so the offset of the buffer is positive whatever
    the buffer type.  A descriptor of a derived bundle stores that offset;
    the test [set == 0] of [New], [Get] and [Lookup] therefore never fires
    on it, while it does on the zero descriptor. *)
Theorem offset_sentinel U union bundle f :
  Fields U union = Ret bundle → f ∈ bundle →
  (∀ B, 0 < Offsetof_buf B)
  ∧ set f = Offsetof_buf (buffer_type (Buf U))
  ∧ set f ≠ 0
  ∧ (∀ Value ambient v u,
       New U Value f ambient v ≠ Panic not_initialized
       ∧ Lookup U Value f ambient u ≠ Panic not_initialized
       ∧ Get U Value f ambient u ≠ Panic not_initialized)
  ∧ set zero_Field = 0
  ∧ (∀ Value ambient v u,
       New U Value zero_Field ambient v = Panic not_initialized
       ∧ Lookup U Value zero_Field ambient u = Panic not_initialized
       ∧ Get U Value zero_Field ambient u = Panic not_initialized).
Proof.
  intros HF Hf.
  apply Fields_Ret in HF as (n & Hn & _ & ->).
  apply list_elem_of_fmap in Hf as (i & -> & _).
  split; [intros B; pose proof (Offsetof_buf_ge B); lia|].
  split; [by rewrite (buffer_type_bytes _ _ Hn)|].
  split; [done|].
  split; [intros; by apply initialized_no_fault|].
  split; [done|]. done.
Qed.

Lemma offset_sentinel_witness :
  set {| tag := 1; set := 3; any := false |} ≠ 0
  ∧ New {| Buf := buf_8byte;
           Values := [reflect.Float32; reflect.Float64] |}
        reflect.Float64 {| tag := 1; set := 3; any := false |}
        (λ _, Byte.x00) (replicate 8 Byte.x01)
    ≠ Panic not_initialized.
Proof.
  destruct (offset_sentinel
              {| Buf := buf_8byte;
                 Values := [reflect.Float32; reflect.Float64] |}
              (Raw []) [{| tag := 0; set := 3; any := false |};
                        {| tag := 1; set := 3; any := false |}]
              {| tag := 1; set := 3; any := false |}
              eq_refl)
    as (_ & _ & Hs & Hops & _).
  - right. left.
  - split; [exact Hs|].
    apply (Hops reflect.Float64 (λ _, Byte.x00) (replicate 8 Byte.x01)
                (Raw [])).
Defined.

(** * Further properties of the package *)

(** ** Sizes *)

Lemma layout_ge fields : ∀ o,
  Forall (λ d, 1 <= d.1 ∧ 0 <= d.2) fields → o <= unsafe.layout o fields.
Proof.
  induction fields as [|[a s] fields IH]; intros o Hf; simpl; [lia|].
  apply Forall_cons in Hf as [[Ha Hs] Hf]. simpl in *.
  specialize (IH (unsafe.RoundUp o a + s) Hf).
  pose proof (RoundUp_bounds o a). lia.
Qed.

Lemma struct_size_nonneg fields :
  Forall (λ d, 1 <= d.1 ∧ 0 <= d.2) fields → 0 <= unsafe.struct_size fields.
Proof.
  intros Hf. unfold unsafe.struct_size.
  pose proof (layout_ge fields 0 Hf) as Hl.
  set (al := foldr Z.max 1 _).
  assert (1 <= al) by apply foldr_max_ge.
  match goal with |- _ <= unsafe.RoundUp ?s _ =>
    pose proof (RoundUp_bounds s al); assert (0 <= s) by (case_match; lia)
  end.
  lia.
Qed.

Lemma Sizeof_nonneg : ∀ T, 0 <= unsafe.Sizeof T.
Proof.
  fix IH 1. intros [ | | | | | | | | | | | | | | | | | | | | | | |
                    |len elem|fields]; simpl; try lia.
  - specialize (IH elem). nia.
  - apply struct_size_nonneg.
    induction fields as [|F fields IHf]; simpl; constructor; [|exact IHf].
    simpl. split; [apply Alignof_pos | apply IH].
Qed.

(** X8. The write of [New] stays inside its local variable: whatever the
    value type, a value stored at offset 3 of a
    [UnionMethods[Value, Value]] ends before the variable does. *)
Theorem New_write_in_bounds Value :
  3 + unsafe.Sizeof Value
  <= unsafe.Sizeof (reflect.Struct (UnionMethods Value)).
Proof. apply Sizeof_local, Sizeof_nonneg. Qed.

(** ** [hasPointers] *)

(** X1. [hasPointers] answers true exactly for the types that are a
    pointer, channel, map, interface, slice, function or unsafe pointer,
    or that hold one in a struct field or array element at any depth.
    A string is none of these. *)
Theorem hasPointers_iff T :
  (hasPointers T = true ↔ contains_pointer T)
  ∧ hasPointers reflect.String = false.
Proof.
  split; [|done]. split; [apply hasPointers_sound | apply hasPointers_complete].
Qed.

Lemma hasPointers_iff_witness :
  hasPointers
    (reflect.Struct
       [reflect.Int32; reflect.Array 2 (reflect.Struct [reflect.Slice])])
  = true.
Proof.
  apply (proj1 (hasPointers_iff _)).
  apply (cp_field _ (reflect.Array 2 (reflect.Struct [reflect.Slice])));
    [right; left|].
  apply cp_elem, (cp_field _ reflect.Slice); [left|].
  apply cp_here. constructor.
Defined.


(** ** [Fields] *)






Lemma Fields_tags_witness :
  tag {| tag := 1; set := 3; any := false |} = int16 1
  ∧ (1 < 2 ^ 15 → tag {| tag := 1; set := 3; any := false |} = 1).
Proof.
  destruct (proj2 (Fields_tags
                     {| Buf := buf_8byte;
                        Values := [reflect.Float32; reflect.Float64] |}
                     (Raw []) [{| tag := 0; set := 3; any := false |};
                               {| tag := 1; set := 3; any := false |}]
                     eq_refl)
                  1%nat {| tag := 1; set := 3; any := false |} eq_refl)
    as (Ht & Hsmall & _).
  split; [exact Ht | exact Hsmall].
Defined.

(** ** Dispatch on [FieldOf] *)

(** X5. A switch on [FieldOf] takes the case of the accessor the union was
    built through and no other: below 65,536 alternatives, [FieldOf] of a
    union built through accessor [i] is the descriptor of accessor [j]
    only when [j] is [i]. *)
Theorem FieldOf_dispatch U union bundle i j Value f g ambient v u :
  Fields U union = Ret bundle →
  Values U !! i = Some Value → bundle !! i = Some f →
  bundle !! j = Some g →
  Z.of_nat i < 2 ^ 16 → Z.of_nat j < 2 ^ 16 →
  Z.of_nat (length v) = unsafe.Sizeof Value →
  New U Value f ambient v = Ret u →
  (FieldOf U u = g ↔ i = j).
Proof.
  intros HF HV Hf Hg Hi Hj Hv HN.
  destruct (New_derived _ _ _ _ _ _ ambient v HF HV Hf)
    as (n & Hn & -> & Hs & HN').
  rewrite HN' in HN. injection HN as <-.
  apply Fields_Ret in HF as (n' & _ & _ & ->).
  apply lookup_lt_Some in Hg as Hj'. rewrite length_fmap, length_seq in Hj'.
  rewrite list_lookup_fmap, lookup_seq_lt in Hg by done.
  injection Hg as <-.
  unfold FieldOf. rewrite <- (Sizeof_Union _ _ Hn).
  rewrite (getTag_New_memory _ n) by (simpl; lia || done).
  cbn [tag set any derived negb]. rewrite int16_idemp.
  split.
  - intros Heq. injection Heq as Heq. apply int16_inj_lt in Heq; lia.
  - by intros ->.
Qed.

Lemma FieldOf_dispatch_witness :
  FieldOf {| Buf := buf_8byte;
             Values := [reflect.Float32; reflect.Float64] |}
          (Raw [Byte.x00; Byte.x00; Byte.x00; Byte.xdb; Byte.x0f; Byte.x49;
                Byte.x40; Byte.x00; Byte.xff; Byte.xff; Byte.xff; Byte.xff])
  ≠ {| tag := 1; set := 3; any := false |}.
Proof.
  intros Heq.
  apply (FieldOf_dispatch
           {| Buf := buf_8byte;
              Values := [reflect.Float32; reflect.Float64] |}
           (Raw []) [{| tag := 0; set := 3; any := false |};
                     {| tag := 1; set := 3; any := false |}]
           0 1 reflect.Float32 {| tag := 0; set := 3; any := false |}
           {| tag := 1; set := 3; any := false |} (λ _, Byte.xff)
           [Byte.xdb; Byte.x0f; Byte.x49; Byte.x40] _
           eq_refl eq_refl eq_refl eq_refl) in Heq;
    (discriminate || reflexivity || (simpl; lia)).
Defined.

(** ** Reading through another accessor *)

(** X6. Below 65,536 alternatives, reading a union through an accessor
    other than the one it was built through finds nothing: [Lookup]
    returns the zero value and false, and [Get] panics with the wrong-tag
    message. *)
Theorem Get_other_wrong_tag U union bundle i j ValueA ValueB fA fB
    ambient ambient' v :
  Fields U union = Ret bundle →
  Values U !! i = Some ValueA → bundle !! i = Some fA →
  Values U !! j = Some ValueB → bundle !! j = Some fB →
  i ≠ j → Z.of_nat i < 2 ^ 16 → Z.of_nat j < 2 ^ 16 →
  ∃ u, New U ValueA fA ambient v = Ret u
       ∧ Lookup U ValueB fB ambient' u = Ret (zero ValueB, false)
       ∧ Get U ValueB fB ambient' u = Panic wrong_tag.
Proof.
  intros HF HVA HfA HVB HfB Hne Hi Hj.
  assert (Ht : tag fA ≠ tag fB).
  { destruct (Fields_accessor _ _ _ _ _ _ HF HVA HfA) as (? & _ & -> & _).
    destruct (Fields_accessor _ _ _ _ _ _ HF HVB HfB) as (? & _ & -> & _).
    intros Heq. by apply Hne, (derived_tag_inj true 3). }
  destruct (Lookup_other _ _ _ _ _ _ _ _ _ ambient ambient' v
              HF HVA HfA HVB HfB Ht) as (u & HN & HL).
  exists u. repeat split; [done | done |].
  unfold Get. by rewrite HL.
Qed.

Lemma Get_other_wrong_tag_witness :
  ∃ u, New {| Buf := buf_8byte;
              Values := [reflect.Float32; reflect.Float64] |}
           reflect.Float32 {| tag := 0; set := 3; any := false |}
           (λ _, Byte.xff) [Byte.xdb; Byte.x0f; Byte.x49; Byte.x40] = Ret u
       ∧ Lookup {| Buf := buf_8byte;
                   Values := [reflect.Float32; reflect.Float64] |}
                reflect.Float64 {| tag := 1; set := 3; any := false |}
                (λ _, Byte.xff) u
         = Ret (zero reflect.Float64, false)
       ∧ Get {| Buf := buf_8byte;
                Values := [reflect.Float32; reflect.Float64] |}
             reflect.Float64 {| tag := 1; set := 3; any := false |}
             (λ _, Byte.xff) u
         = Panic wrong_tag.
Proof.
  apply (Get_other_wrong_tag
           {| Buf := buf_8byte;
              Values := [reflect.Float32; reflect.Float64] |}
           (Raw []) [{| tag := 0; set := 3; any := false |};
                     {| tag := 1; set := 3; any := false |}] 0 1);
    (reflexivity || discriminate || (simpl; lia)).
Defined.

(** ** What [Lookup] and [New] read *)




(** Behind the local variable of [New] the memory is the ambient one. *)
Lemma New_memory_beyond Value f ambient v a :
  set f = 3 → Z.of_nat (length v) = unsafe.Sizeof Value →
  unsafe.Sizeof (reflect.Struct (UnionMethods Value)) <= a →
  New_memory Value f ambient v a = ambient a.
Proof.
  intros Hs Hv Ha.
  pose proof (Sizeof_local Value (Sizeof_nonneg Value)) as HL.
  unfold New_memory. rewrite Hs.
  rewrite mem_write_outside by lia.
  rewrite mem_write_outside by (rewrite length_put_int16; lia).
  apply mem_write_outside. rewrite length_zero. lia.
Qed.



(** X10. Two unions built through the same derived accessor from the same
    value need not be equal: when the value type is smaller than the
    buffer, [New] copies bytes from behind its local variable, so the
    result changes with them. *)
Theorem New_not_canonical U union bundle i Value f ambient ambient' v :
  Fields U union = Ret bundle →
  Values U !! i = Some Value → bundle !! i = Some f →
  Z.of_nat (length v) = unsafe.Sizeof Value →
  unsafe.Sizeof (reflect.Struct (UnionMethods Value))
  < unsafe.Sizeof (Union U) →
  ambient (unsafe.Sizeof (reflect.Struct (UnionMethods Value)))
  ≠ ambient' (unsafe.Sizeof (reflect.Struct (UnionMethods Value))) →
  New U Value f ambient v ≠ New U Value f ambient' v.
Proof.
  intros HF HV Hf Hv HL Hamb Heq.
  destruct (New_derived _ _ _ _ _ _ ambient v HF HV Hf)
    as (n & Hn & -> & _ & HN).
  destruct (New_derived _ _ _ _ _ _ ambient' v HF HV Hf)
    as (n' & Hn' & _ & _ & HN').
  assert (n' = n) as -> by congruence.
  rewrite HN, HN' in Heq. injection Heq as Heq.
  rewrite (Sizeof_Union _ _ Hn) in HL.
  pose proof (Sizeof_local Value (Sizeof_nonneg Value)).
  pose proof (Sizeof_nonneg Value).
  set (L := unsafe.Sizeof (reflect.Struct (UnionMethods Value))) in *.
  apply (f_equal (λ l, l !! Z.to_nat L)) in Heq.
  rewrite !mem_read_lookup in Heq by lia.
  rewrite !New_memory_beyond in Heq by (done || lia).
  apply Hamb. replace L with (0 + Z.of_nat (Z.to_nat L)) by lia. congruence.
Qed.

Lemma New_not_canonical_witness :
  New {| Buf := buf_8byte; Values := [reflect.Float32; reflect.Float64] |}
      reflect.Float32 {| tag := 0; set := 3; any := false |}
      (λ _, Byte.x00) [Byte.xdb; Byte.x0f; Byte.x49; Byte.x40]
  ≠ New {| Buf := buf_8byte; Values := [reflect.Float32; reflect.Float64] |}
        reflect.Float32 {| tag := 0; set := 3; any := false |}
        (λ _, Byte.xff) [Byte.xdb; Byte.x0f; Byte.x49; Byte.x40].
Proof.
  apply (New_not_canonical
           {| Buf := buf_8byte;
              Values := [reflect.Float32; reflect.Float64] |}
           (Raw []) [{| tag := 0; set := 3; any := false |};
                     {| tag := 1; set := 3; any := false |}] 0);
    (reflexivity || discriminate).
Defined.

(** ** Boxed storage *)

(** X11. The boxed branch of [New], [Get], [Lookup] and [FieldOf], for a
    union over [any] and a descriptor filled the way [load] fills one when
    the buffer is not an array.  [New] boxes the value with its type and
    [Get] hands it back; [FieldOf] shows the tag, offset 8 and the boxed
    flag; [Lookup] through another tag returns the zero value and false;
    and [Lookup] through the same tag panics when the slot is nil, as in
    the zero union, or holds a value of another type. *)
Theorem boxed_path U Value f ambient ambient' v :
  Buf U = buf_any → set f ≠ 0 → any f = true →
  Value ≠ reflect.Interface →
  New U Value f ambient v = Ret (Boxed (tag f) true (Some (Value, v)))
  ∧ Get U Value f ambient' (Boxed (tag f) true (Some (Value, v))) = Ret v
  ∧ FieldOf U (Boxed (tag f) true (Some (Value, v)))
    = {| tag := tag f; set := 8; any := true |}
  ∧ (∀ g ValueB,
       set g ≠ 0 → any g = true → tag g ≠ tag f →
       Lookup U ValueB g ambient' (Boxed (tag f) true (Some (Value, v)))
       = Ret (zero ValueB, false))
  ∧ (∀ uany, Lookup U Value f ambient' (Boxed (tag f) uany None)
             = Panic interface_conversion)
  ∧ (∀ uany T w, T ≠ Value →
       Lookup U Value f ambient' (Boxed (tag f) uany (Some (T, w)))
       = Panic interface_conversion).
Proof.
  intros HB Hs Ha HV.
  destruct (Get_New_boxed U Value f ambient ambient' v HB Hs Ha HV)
    as [HN HG].
  split; [done|]. split; [done|].
  split; [unfold FieldOf, getTag, buffer_type; by rewrite HB|].
  apply Z.eqb_neq in Hs.
  split; [|split].
  - intros g ValueB Hg Hga Hne. unfold Lookup.
    apply Z.eqb_neq in Hg. rewrite Hg, Hga. apply not_eq_sym in Hne.
    apply Z.eqb_neq in Hne. by rewrite Hne.
  - intros uany. unfold Lookup. rewrite Hs, Ha, Z.eqb_refl. simpl.
    by destruct Value.
  - intros uany T w HT. unfold Lookup. rewrite Hs, Ha, Z.eqb_refl. simpl.
    rewrite decide_False by done. by destruct Value.
Qed.

Lemma boxed_path_witness :
  New {| Buf := buf_any; Values := [reflect.Slice] |} reflect.Slice
      {| tag := 0; set := 8; any := true |} (λ _, Byte.x00)
      (replicate 24 Byte.x01)
  = Ret (Boxed 0 true (Some (reflect.Slice, replicate 24 Byte.x01)))
  ∧ Lookup {| Buf := buf_any; Values := [reflect.Slice] |} reflect.Slice
           {| tag := 0; set := 8; any := true |} (λ _, Byte.x00)
           (zero_union {| Buf := buf_any; Values := [reflect.Slice] |})
    = Panic interface_conversion.
Proof.
  destruct (boxed_path {| Buf := buf_any; Values := [reflect.Slice] |}
              reflect.Slice {| tag := 0; set := 8; any := true |}
              (λ _, Byte.x00) (λ _, Byte.x00) (replicate 24 Byte.x01)
              eq_refl ltac:(discriminate) eq_refl ltac:(discriminate))
    as (HN & _ & _ & _ & Hnil & _).
  split; [exact HN | apply (Hnil false)].
Defined.

(** ** [Interface] *)

Lemma get_int16_idemp bs : int16 (get_int16 bs) = get_int16 bs.
Proof. apply int16_idemp. Qed.

Lemma loadable_not_Interface direct buf Value :
  loadable direct buf Value = true → Value ≠ reflect.Interface.
Proof. by intros Hl ->. Qed.

(** [Interface] on a union over a byte buffer whose tag selects the
    alternative [Value]. *)
Lemma Interface_selected U n ambient bytes Value :
  buffer_len (Buf U) = Some n →
  0 <= get_int16 (take 2 bytes) →
  Values U !! Z.to_nat (get_int16 (take 2 bytes)) = Some Value →
  Interface U ambient (Raw bytes)
  = getter ← load Value
               (default zero_Field
                  (replicate (length (Values U)) zero_Field
                     !! Z.to_nat (get_int16 (take 2 bytes))))
               (get_int16 (take 2 bytes)) true (Z.of_nat n) 3;
    get U Value getter ambient (Raw bytes).
Proof.
  intros Hn Hi HV. unfold Interface.
  rewrite (buffer_type_bytes _ _ Hn), Offsetof_buf_bytes.
  cbn [reflect.TypeOf_zero Kind_is_Array mbind outcome_bind union_tag
       unsafe.Sizeof].
  rewrite Z.mul_1_r, get_int16_idemp.
  apply lookup_lt_Some in HV as Hlt.
  destruct (_ <? 0) eqn:E1; [apply Z.ltb_lt in E1; lia|].
  destruct (_ <=? _) eqn:E2; [apply Z.leb_le in E2; lia|].
  simpl. by rewrite HV.
Qed.



(** The tag of the union that [New] builds through a derived accessor. *)
Lemma union_tag_New_memory n Value f ambient v :
  3 <= set f →
  union_tag (Raw (mem_read (New_memory Value f ambient v) 0
                           (Z.of_nat n + 4)))
  = int16 (tag f).
Proof.
  intros Hs. unfold union_tag.
  rewrite (take_mem_read _ _ _ 2) by lia.
  by rewrite New_memory_tag, get_put_int16.
Qed.

(** X13. Dynamic extraction round trip: for the first 32,768 alternatives,
    [Interface] on the union built by [New] through a derived accessor
    returns the accessor's value type together with the value. *)
Theorem Interface_New U union bundle i Value f ambient ambient' v :
  Fields U union = Ret bundle →
  Values U !! i = Some Value → bundle !! i = Some f →
  Z.of_nat i < 2 ^ 15 →
  Z.of_nat (length v) = unsafe.Sizeof Value →
  ∃ u, New U Value f ambient v = Ret u
       ∧ Interface U ambient' u = Ret (Some (Value, v)).
Proof.
  intros HF HV Hf Hi Hv.
  destruct (New_derived _ _ _ _ _ _ ambient v HF HV Hf)
    as (n & Hn & -> & Hs & HN).
  eexists. split; [exact HN|].
  apply Fields_Ret in HF as (n' & Hn' & [Hl _] & _).
  assert (n' = n) as -> by congruence.
  assert (HL : loadable true (Z.of_nat n) Value = true).
  { rewrite forallb_forall in Hl. apply Hl, list_elem_of_In.
    by eapply list_elem_of_lookup_2. }
  assert (Ht : get_int16
                 (take 2 (mem_read (New_memory Value (derived true 3 i)
                                               ambient v) 0
                                   (Z.of_nat n + 4)))
               = Z.of_nat i).
  { pose proof (union_tag_New_memory n Value (derived true 3 i) ambient v)
      as Ht.
    unfold union_tag in Ht. rewrite Ht by (simpl; lia).
    cbn [tag derived]. rewrite int16_idemp. apply int16_small. lia. }
  rewrite (Interface_selected _ n _ _ Value);
    rewrite ?Ht, ?Nat2Z.id; [|done|lia|done].
  rewrite (load_loadable _ _ _ _ _ _ HL). simpl.
  unfold get, Get.
  rewrite (Lookup_New_memory U n) by (simpl; lia || done).
  cbn [tag set derived]. rewrite int16_idemp, int16_small, Z.eqb_refl by lia.
  simpl. rewrite <- Hv.
  assert (Hval : mem_read (New_memory Value (derived true 3 i) ambient v) 3
                          (Z.of_nat (length v)) = v)
    by apply (New_memory_value Value (derived true 3 i)).
  rewrite Hval.
  apply loadable_not_Interface in HL. by destruct Value.
Qed.

Lemma Interface_New_witness :
  ∃ u, New {| Buf := buf_8byte;
              Values := [reflect.Float32; reflect.Float64] |}
           reflect.Float32 {| tag := 0; set := 3; any := false |}
           (λ _, Byte.xff) [Byte.x54; Byte.xf8; Byte.x2d; Byte.x40] = Ret u
       ∧ Interface {| Buf := buf_8byte;
                      Values := [reflect.Float32; reflect.Float64] |}
                   (λ _, Byte.x00) u
         = Ret (Some (reflect.Float32,
                      [Byte.x54; Byte.xf8; Byte.x2d; Byte.x40])).
Proof.
  apply (Interface_New
           {| Buf := buf_8byte;
              Values := [reflect.Float32; reflect.Float64] |}
           (Raw []) [{| tag := 0; set := 3; any := false |};
                     {| tag := 1; set := 3; any := false |}] 0);
    (reflexivity || (simpl; lia)).
Defined.

(** X14. From alternative 32,768 on the tag is negative, and [Interface]
    uses it as a field index: on a union built by [New] through such an
    accessor it panics with reflect's index-out-of-range error, although
    [Get] through the same accessor returns the value. *)
Theorem Interface_high_index U union bundle i Value f ambient ambient' v :
  Fields U union = Ret bundle →
  Values U !! i = Some Value → bundle !! i = Some f →
  2 ^ 15 <= Z.of_nat i < 2 ^ 16 →
  Z.of_nat (length v) = unsafe.Sizeof Value →
  ∃ u, New U Value f ambient v = Ret u
       ∧ Interface U ambient' u = Panic index_out_of_range
       ∧ Get U Value f ambient' u = Ret v.
Proof.
  intros HF HV Hf Hi Hv.
  destruct (New_derived _ _ _ _ _ _ ambient v HF HV Hf)
    as (n & Hn & -> & Hs & HN).
  eexists. split; [exact HN|].
  split.
  - unfold Interface.
    rewrite (buffer_type_bytes _ _ Hn).
    cbn [reflect.TypeOf_zero Kind_is_Array mbind outcome_bind].
    rewrite (union_tag_New_memory n Value (derived true 3 i) ambient v)
      by (simpl; lia).
    cbn [tag derived]. rewrite int16_idemp.
    assert (Hneg : int16 (Z.of_nat i) < 0).
    { unfold int16.
      replace (Z.of_nat i + 2 ^ 15)
        with (Z.of_nat i - 2 ^ 15 + 1 * 2 ^ 16) by lia.
      rewrite Z_mod_plus_full, Z.mod_small; lia. }
    apply Z.ltb_lt in Hneg. by rewrite Hneg.
  - unfold Get.
    rewrite (Lookup_New_memory U n) by (simpl; lia || done).
    cbn [tag set derived]. rewrite int16_idemp, Z.eqb_refl.
    simpl. rewrite <- Hv. f_equal.
    apply (New_memory_value Value (derived true 3 i)).
Qed.

Lemma Interface_high_index_witness :
  ∃ u, New {| Buf := buf_4byte;
              Values := replicate (Z.to_nat 32769) reflect.Uint8 |}
           reflect.Uint8 (derived true 3 (Z.to_nat 32768))
           (λ _, Byte.x00) [Byte.x2a] = Ret u
       ∧ Interface {| Buf := buf_4byte;
                      Values := replicate (Z.to_nat 32769) reflect.Uint8 |}
                   (λ _, Byte.x00) u
         = Panic index_out_of_range
       ∧ Get {| Buf := buf_4byte;
                Values := replicate (Z.to_nat 32769) reflect.Uint8 |}
             reflect.Uint8 (derived true 3 (Z.to_nat 32768))
             (λ _, Byte.x00) u
         = Ret [Byte.x2a].
Proof.
  apply (Interface_high_index
           {| Buf := buf_4byte;
              Values := replicate (Z.to_nat 32769) reflect.Uint8 |}
           (Raw []) (derived true 3 <$> seq 0 (Z.to_nat 32769))
           (Z.to_nat 32768)).
  - apply (Fields_replicate_Uint8 buf_4byte 4); [reflexivity | lia |].
    unfold MaxInt32. lia.
  - apply lookup_replicate_2. lia.
  - rewrite list_lookup_fmap, lookup_seq_lt by lia. reflexivity.
  - lia.
  - reflexivity.
Defined.

(** X15. Over the buffer [any], [Interface] panics on every union value,
    for the reason [Fields] does: the kind of the nil type is asked
    for. *)
Theorem Interface_any_buffer_panics U ambient union :
  Buf U = buf_any → Interface U ambient union = Panic nil_dereference.
Proof. intros HB. unfold Interface, buffer_type. by rewrite HB. Qed.

Lemma Interface_any_buffer_panics_witness :
  Interface {| Buf := buf_any; Values := [reflect.Ptr] |} (λ _, Byte.x00)
            (Boxed 0 true (Some (reflect.Ptr, replicate 8 Byte.x00)))
  = Panic nil_dereference.
Proof.
  apply (Interface_any_buffer_panics
           {| Buf := buf_any; Values := [reflect.Ptr] |}).
  reflexivity.
Defined.
